(** * dumpsock: a shallow embedding of src/dumpsock.cpp

    The program listens on TCP port 9999, accepts one connection, reads
    everything the peer sends and writes it to standard output.  The
    [Monadish] namespace threads a [Context = Env | Error] through a fixed
    chain of steps; once the context holds an [Error] every step except
    [dump] is a no-op.

    Effects are modelled by a small state-and-blocking monad over a
    [World]: the world holds the answers of the operating system (the
    result of every socket call and the script of [recv] results), the
    trace of calls the program makes, and the bytes written to standard
    output and standard error.  A computation returning [None] blocks
    forever (a [recv] with nothing more to deliver). *)

From Stdlib Require Import String Ascii ZArith List Lia Bool.
Import ListNotations.
Open Scope Z_scope.

(** ** Win32 constants used by the program *)

Definition AF_INET : Z := 2.
Definition SOCK_STREAM : Z := 1.
Definition IPPROTO_TCP : Z := 6.
(** [SOCKET] is an unsigned pointer-sized integer; [INVALID_SOCKET] is [~0]. *)
Definition INVALID_SOCKET : Z := 2 ^ 64 - 1.
Definition SOCKET_ERROR : Z := -1.
(** [MAKEWORD(2, 2)] *)
Definition MAKEWORD (lo hi : Z) : Z := Z.lor (Z.land lo 255) (Z.shiftl (Z.land hi 255) 8).
Definition EXIT_SUCCESS : Z := 0.
Definition EXIT_FAILURE : Z := 1.
Definition sizeof_sockaddr_in : Z := 16.
Definition buffSize : Z := 4096.

(** ** Byte and string helpers *)

Definition byte := Byte.byte.

(** Decimal rendering of an [int], as [std::to_string] does it. *)
Fixpoint digits_of_nat (fuel : nat) (n : Z) (acc : string) : string :=
  match fuel with
  | O => acc
  | S fuel' =>
      let d := Z.modulo n 10 in
      let c := Ascii.ascii_of_nat (48 + Z.to_nat d) in
      let acc' := String c acc in
      if Z.ltb n 10 then acc' else digits_of_nat fuel' (Z.div n 10) acc'
  end.

Definition to_string (n : Z) : string :=
  if Z.ltb n 0 then String "-"%char (digits_of_nat 40 (- n) EmptyString)
  else digits_of_nat 40 n EmptyString.

Definition bytes_of_string (s : string) : list byte := list_byte_of_string s.

Definition newline : byte := Byte.x0a.

(** The Windows C runtime opens [stdout] in text mode and the program
    never switches it to binary: every LF written is stored as CR LF. *)
Fixpoint text_mode (bs : list byte) : list byte :=
  match bs with
  | [] => []
  | b :: bs' => if Byte.eqb b newline then Byte.x0d :: newline :: text_mode bs'
                else b :: text_mode bs'
  end.

(** ** The C structures *)

(** [sockaddr_in] with its [S_un_b] view of the address. *)
Record sockaddr_in := mk_sockaddr_in {
  sin_family : Z;
  sin_port : Z;
  s_b1 : Z; s_b2 : Z; s_b3 : Z; s_b4 : Z
}.

Definition zero_sockaddr : sockaddr_in := mk_sockaddr_in 0 0 0 0 0 0.

(** [htons] on a little-endian host: swap the two bytes of a 16-bit value. *)
Definition htons (p : Z) : Z :=
  Z.lor (Z.shiftl (Z.land p 255) 8) (Z.land (Z.shiftr p 8) 255).

(** Conversion of an [int] argument to [uint16_t]: modulo 2^16. *)
Definition to_uint16 (n : Z) : Z := Z.land n 65535.

(** The free function [::sockAddrForPort(uint16_t port)]. *)
Definition sockAddrForPort_fn (port : Z) : sockaddr_in :=
  {| sin_family := AF_INET; sin_port := htons port;
     s_b1 := 0; s_b2 := 0; s_b3 := 0; s_b4 := 0 |}.

(** [Monadish::Env].  [wsaData] only records the version WSAStartup
    reported; its other fields are never read by the program. *)
Record Env := mkEnv {
  wsaData : Z;
  socket_ : Z;
  addr : sockaddr_in;
  incomingDataSocket : Z;
  received : list byte
}.

(** [Env{}]: value-initialised. *)
Definition env0 : Env := mkEnv 0 0 zero_sockaddr 0 [].

Definition set_wsaData (e : Env) v := mkEnv v e.(socket_) e.(addr) e.(incomingDataSocket) e.(received).
Definition set_socket (e : Env) v := mkEnv e.(wsaData) v e.(addr) e.(incomingDataSocket) e.(received).
Definition set_addr (e : Env) v := mkEnv e.(wsaData) e.(socket_) v e.(incomingDataSocket) e.(received).
Definition set_incoming (e : Env) v := mkEnv e.(wsaData) e.(socket_) e.(addr) v e.(received).
Definition set_received (e : Env) v := mkEnv e.(wsaData) e.(socket_) e.(addr) e.(incomingDataSocket) v.

(** [Monadish::Context = std::variant<Env, Error>]; an [Error] is its message. *)
Inductive Context :=
| CtxEnv (env : Env)
| CtxError (msg : string).

(** [Monadish::Result = std::variant<Nil, Error>]. *)
Inductive Result :=
| RNil
| RError (msg : string).

(** ** The operating system and the world *)

(** The answers the system gives to each call.  [os_accept_returns] is
    [false] when no peer ever connects and [accept] waits forever;
    [os_fwrite_cap] is the number of bytes the standard output stream
    accepts ([None]: all). *)
Record OS := mkOS {
  os_wsastartup : Z;
  os_socket : Z;
  os_bind : Z;
  os_listen : Z;
  os_accept : Z;
  os_accept_returns : bool;
  os_fwrite_cap : option nat
}.

(** Calls the program makes, recorded in order. *)
Inductive Call :=
| CWSAStartup (version : Z)
| CSocket (af type proto : Z)
| CBind (s : Z) (a : sockaddr_in) (len : Z)
| CListen (s backlog : Z)
| CAccept (s : Z)
| CRecv (s len flags : Z)
| CFwrite (data : list byte).

(** One [recv] answer: the return value and the bytes written at the
    start of the buffer. *)
Abbreviation RecvAnswer := (Z * list byte)%type.

Record World := mkWorld {
  w_os : OS;
  w_recv : list RecvAnswer;
  w_trace : list Call;
  w_stdout : list byte;
  w_stderr : list byte
}.

Definition world0 (os : OS) (script : list RecvAnswer) : World :=
  mkWorld os script [] [] [].

(** ** The effect monad *)

Definition M (A : Type) := World -> option (A * World).

Definition ret {A} (a : A) : M A := fun w => Some (a, w).
Definition bind {A B} (m : M A) (k : A -> M B) : M B :=
  fun w => match m w with Some (a, w') => k a w' | None => None end.

Notation "x <- m ;; k" := (bind m (fun x => k))
  (at level 61, m at next level, right associativity).
Notation "' p <- m ;; k" := (bind m (fun x => match x with p => k end))
  (at level 61, p pattern, m at next level, right associativity).

Definition log (c : Call) (w : World) : World :=
  mkWorld w.(w_os) w.(w_recv) (w.(w_trace) ++ [c]) w.(w_stdout) w.(w_stderr).

Definition put_stdout (bs : list byte) (w : World) : World :=
  mkWorld w.(w_os) w.(w_recv) w.(w_trace) (w.(w_stdout) ++ bs) w.(w_stderr).

Definition pop_recv (w : World) : World :=
  mkWorld w.(w_os) (tl w.(w_recv)) w.(w_trace) w.(w_stdout) w.(w_stderr).

(** *** System calls *)

Definition WSAStartup (version : Z) : M Z :=
  fun w => Some (w.(w_os).(os_wsastartup), log (CWSAStartup version) w).

Definition socket (af ty proto : Z) : M Z :=
  fun w => Some (w.(w_os).(os_socket), log (CSocket af ty proto) w).

Definition sys_bind (s : Z) (a : sockaddr_in) (len : Z) : M Z :=
  fun w => Some (w.(w_os).(os_bind), log (CBind s a len) w).

Definition sys_listen (s backlog : Z) : M Z :=
  fun w => Some (w.(w_os).(os_listen), log (CListen s backlog) w).

(** [accept(s, NULL, NULL)]: blocks until a peer connects. *)
Definition accept (s : Z) : M Z :=
  fun w => if w.(w_os).(os_accept_returns)
           then Some (w.(w_os).(os_accept), log (CAccept s) w)
           else None.

(** [recv(s, buf, len, flags)]: returns the answer's value and the buffer
    with the answer's bytes written over its start; blocks when the peer
    has nothing more to say. *)
Definition recv (s : Z) (buf : list byte) (len flags : Z) : M (Z * list byte) :=
  fun w =>
    match w.(w_recv) with
    | [] => None
    | (r, data) :: _ =>
        Some ((r, data ++ skipn (length data) buf),
              pop_recv (log (CRecv s len flags) w))
    end.

(** [std::fwrite(data, 1, n, stdout)] on the text-mode stream: returns
    the number of elements written. *)
Definition fwrite (data : list byte) : M nat :=
  fun w =>
    let out := match w.(w_os).(os_fwrite_cap) with
               | None => data
               | Some k => firstn k data
               end in
    Some (length out, put_stdout (text_mode out) (log (CFwrite data) w)).

(** [std::cout << msg << std::endl], on the same text-mode stream. *)
Definition cout_line (msg : string) : M unit :=
  fun w => Some (tt, put_stdout (text_mode (bytes_of_string msg ++ [newline])) w).

(** ** [namespace Monadish] *)

(** [Context freshContext()] *)
Definition freshContext : Context := CtxEnv env0.

(** The one-callable [errorGuard(ctx, callable)]: a no-op on [Error];
    otherwise run the callable on the environment (which it may mutate)
    and replace the context by the error it returns, if any. *)
Definition errorGuard (ctx : Context) (callable : Env -> M (Env * Result)) : M Context :=
  match ctx with
  | CtxError m => ret (CtxError m)
  | CtxEnv env =>
      '(env', result) <- callable env ;;
      match result with
      | RError m => ret (CtxError m)
      | RNil => ret (CtxEnv env')
      end
  end.

(** The two-callable [errorGuard(ctx, onOk, onFailure)]. *)
Definition errorGuard2 (ctx : Context) (onOk : Env -> M (Env * Result))
    (onFailure : string -> M unit) : M Context :=
  match ctx with
  | CtxError m => _u <- onFailure m ;; ret (CtxError m)
  | CtxEnv env =>
      '(env', result) <- onOk env ;;
      match result with
      | RError m => ret (CtxError m)
      | RNil => ret (CtxEnv env')
      end
  end.

Definition init (ctx : Context) : M Context :=
  errorGuard ctx (fun env =>
    iResult <- WSAStartup (MAKEWORD 2 2) ;;
    if negb (Z.eqb iResult 0)
    then ret (env, RError (append "WSAStartup failed: " (to_string iResult)))
    else ret (set_wsaData env (MAKEWORD 2 2), RNil)).

Definition setupTcpSocket (ctx : Context) : M Context :=
  errorGuard ctx (fun env =>
    s <- socket AF_INET SOCK_STREAM IPPROTO_TCP ;;
    let env := set_socket env s in
    if Z.eqb env.(socket_) INVALID_SOCKET
    then ret (env, RError "Couldn't create a tcp socket")
    else ret (env, RNil)).

(** [Monadish::sockAddrForPort(Context&, int port)]: the [int] is passed
    to [::sockAddrForPort(uint16_t)], hence the conversion. *)
Definition sockAddrForPort (ctx : Context) (port : Z) : M Context :=
  errorGuard ctx (fun env =>
    ret (set_addr env (sockAddrForPort_fn (to_uint16 port)), RNil)).

Definition bindSocket (ctx : Context) : M Context :=
  errorGuard ctx (fun env =>
    result <- sys_bind env.(socket_) env.(addr) sizeof_sockaddr_in ;;
    if Z.eqb result SOCKET_ERROR
    then ret (env, RError "socket bind error")
    else ret (env, RNil)).

Definition listenSocket (ctx : Context) : M Context :=
  errorGuard ctx (fun env =>
    result <- sys_listen env.(socket_) 1 ;;
    if Z.eqb result SOCKET_ERROR
    then ret (env, RError "socket listen error")
    else ret (env, RNil)).

Definition acceptSocket (ctx : Context) : M Context :=
  errorGuard ctx (fun env =>
    s <- accept env.(socket_) ;;
    let env := set_incoming env s in
    if Z.eqb env.(incomingDataSocket) INVALID_SOCKET
    then ret (env, RError "socket accept error")
    else ret (env, RNil)).

(** [char buf[buffSize] = { 0 }] and the [memset] after each chunk. *)
Definition zero_buf : list byte := repeat Byte.x00 (Z.to_nat buffSize).

(** The [while (result = recv(...))] loop.  Each iteration consumes one
    [recv] answer, so [drainSocket] runs it with one unit of fuel more
    than there are answers left; it never runs out. *)
Fixpoint drain_loop (fuel : nat) (env : Env) (buf : list byte) : M (Env * Result) :=
  match fuel with
  | O => fun _ => None
  | S fuel' =>
      '(result, buf') <- recv env.(incomingDataSocket) buf buffSize 0 ;;
      if Z.eqb result 0 then ret (env, RNil)
      else if Z.eqb result SOCKET_ERROR
      then ret (env, RError "socket error during read")
      else
        let readSize := result in
        let env := set_received env (env.(received) ++ firstn (Z.to_nat readSize) buf') in
        drain_loop fuel' env zero_buf
  end.

(** [env.received.reserve(1 MiB)] changes capacity only, not contents. *)
Definition drainSocket (ctx : Context) : M Context :=
  errorGuard ctx (fun env w =>
    drain_loop (S (length w.(w_recv))) env zero_buf w).

Definition dump (ctx : Context) : M Context :=
  let ok := fun env =>
    _n <- fwrite env.(received) ;; ret (env, RNil) in
  let fail := fun msg => cout_line msg in
  errorGuard2 ctx ok fail.

Definition getExitCode (ctx : Context) : Z :=
  match ctx with
  | CtxError _ => EXIT_FAILURE
  | CtxEnv _ => EXIT_SUCCESS
  end.

(** [main], up to the context it leaves after [dump]. *)
Definition main_ctx : M Context :=
  let ctx := freshContext in
  ctx <- init ctx ;;
  ctx <- setupTcpSocket ctx ;;
  ctx <- sockAddrForPort ctx 9999 ;;
  ctx <- bindSocket ctx ;;
  ctx <- listenSocket ctx ;;
  ctx <- acceptSocket ctx ;;
  ctx <- drainSocket ctx ;;
  ctx <- dump ctx ;;
  ret ctx.

Definition main : M Z :=
  ctx <- main_ctx ;; ret (getExitCode ctx).

(** A run of the program against a given system and peer. *)
Definition run (os : OS) (script : list RecvAnswer) : option (Z * World) :=
  main (world0 os script).

Definition run_ctx (os : OS) (script : list RecvAnswer) : option (Context * World) :=
  main_ctx (world0 os script).

(** ** Sample systems *)

Definition os_ok : OS := mkOS 0 100 0 0 200 true None.
Definition os_bind_fails : OS := mkOS 0 100 SOCKET_ERROR 0 200 true None.

Definition hello : list byte := bytes_of_string "hello".

Example scenario_A :
  option_map (fun '(c, w) => (c, w.(w_stdout))) (run os_ok [(5, hello); (0, [])])
  = Some (EXIT_SUCCESS, hello).
Proof. vm_compute. reflexivity. Qed.

Example scenario_bind :
  option_map (fun '(c, w) => (c, w.(w_stdout))) (run os_bind_fails [(5, hello); (0, [])])
  = Some (EXIT_FAILURE, bytes_of_string "socket bind error" ++ [Byte.x0d; newline]).
Proof. vm_compute. reflexivity. Qed.

(** ** Predicates on the peer's behaviour *)

(** A [recv] answer that neither closes nor fails: the loop continues. *)
Definition cont_read (a : RecvAnswer) : Prop := fst a <> 0 /\ fst a <> SOCKET_ERROR.

(** A data read as [recv] delivers it: [n] bytes, [0 < n <= len]. *)
Definition data_read (a : RecvAnswer) : Prop :=
  0 < fst a <= buffSize /\ Z.of_nat (length (snd a)) = fst a.

(** [recv]'s contract: it returns [0], [SOCKET_ERROR] or a data read. *)
Definition wf_answer (a : RecvAnswer) : Prop :=
  fst a = 0 \/ fst a = SOCKET_ERROR \/ data_read a.

Definition wf_script (script : list RecvAnswer) : Prop := Forall wf_answer script.

(** The answers a peer sending [chunks] and then closing produces. *)
Definition chunk_answer (c : list byte) : RecvAnswer := (Z.of_nat (length c), c).

Definition chunk_ok (c : list byte) : Prop :=
  c <> [] /\ (length c <= Z.to_nat buffSize)%nat.

(** The stream of answers reaches an orderly close (a zero-byte read)
    before any transport error. *)
Definition graceful_close (script : list RecvAnswer) : Prop :=
  exists pre d rest, script = pre ++ (0, d) :: rest /\ Forall cont_read pre.

(** Every step before [accept] succeeds ([setup_succeeds]), and
    [accept] returns a connection ([connection_accepted]). *)
Definition setup_succeeds (os : OS) : Prop :=
  os.(os_wsastartup) = 0 /\ os.(os_socket) <> INVALID_SOCKET /\
  os.(os_bind) <> SOCKET_ERROR /\ os.(os_listen) <> SOCKET_ERROR.

Definition connection_accepted (os : OS) : Prop :=
  setup_succeeds os /\ os.(os_accept_returns) = true /\ os.(os_accept) <> INVALID_SOCKET.

Definition is_recv_call (c : Call) : Prop :=
  match c with CRecv _ _ _ => True | _ => False end.

Definition recv_world (s : Z) (w : World) : World :=
  pop_recv (log (CRecv s buffSize 0) w).

(** ** Lemmas on the drain loop *)

Lemma drain_loop_step_zero fuel env buf w d rest :
  w.(w_recv) = (0, d) :: rest ->
  drain_loop (S fuel) env buf w =
  Some ((env, RNil), recv_world env.(incomingDataSocket) w).
Proof. intros H. cbn. unfold bind, recv. rewrite H. reflexivity. Qed.

Lemma drain_loop_step_error fuel env buf w d rest :
  w.(w_recv) = (SOCKET_ERROR, d) :: rest ->
  drain_loop (S fuel) env buf w =
  Some ((env, RError "socket error during read"), recv_world env.(incomingDataSocket) w).
Proof. intros H. cbn. unfold bind, recv. rewrite H. reflexivity. Qed.

Lemma drain_loop_step_read fuel env buf w a rest :
  w.(w_recv) = a :: rest -> cont_read a ->
  drain_loop (S fuel) env buf w =
  drain_loop fuel
    (set_received env (env.(received) ++
       firstn (Z.to_nat (fst a)) (snd a ++ skipn (length (snd a)) buf)))
    zero_buf (recv_world env.(incomingDataSocket) w).
Proof.
  intros H [H0 H1]. destruct a as [r data]. cbn in *. unfold bind, recv. rewrite H.
  destruct (Z.eqb_spec r 0); [contradiction|].
  destruct (Z.eqb_spec r SOCKET_ERROR); [contradiction|]. reflexivity.
Qed.

Lemma firstn_data_read a buf :
  data_read a -> firstn (Z.to_nat (fst a)) (snd a ++ buf) = snd a.
Proof.
  destruct a as [r data]; unfold data_read; cbn. intros [_ H]. rewrite <- H, Nat2Z.id.
  rewrite firstn_app, firstn_all, Nat.sub_diag. cbn. apply app_nil_r.
Qed.

Lemma recv_world_fields s w :
  (recv_world s w).(w_os) = w.(w_os) /\ (recv_world s w).(w_recv) = tl w.(w_recv) /\
  (recv_world s w).(w_stdout) = w.(w_stdout) /\ (recv_world s w).(w_stderr) = w.(w_stderr) /\
  (recv_world s w).(w_trace) = w.(w_trace) ++ [CRecv s buffSize 0].
Proof. repeat split. Qed.

Lemma set_received_twice e a b : set_received (set_received e a) b = set_received e b.
Proof. reflexivity. Qed.

Lemma incoming_set_received e a : (set_received e a).(incomingDataSocket) = e.(incomingDataSocket).
Proof. reflexivity. Qed.

Lemma drain_loop_close pre d rest : forall fuel env buf w,
  Forall cont_read pre -> w.(w_recv) = pre ++ (0, d) :: rest -> (length pre < fuel)%nat ->
  exists x w', drain_loop fuel env buf w = Some ((set_received env x, RNil), w') /\
    w'.(w_recv) = rest /\ w'.(w_os) = w.(w_os) /\ w'.(w_stdout) = w.(w_stdout) /\
    w'.(w_stderr) = w.(w_stderr) /\
    (Forall data_read pre -> x = env.(received) ++ concat (map snd pre)).
Proof.
  induction pre as [|a pre IH]; intros fuel env buf w Hc Hw Hf;
    (destruct fuel as [|fuel]; [cbn in Hf; lia|]).
  - exists env.(received), (recv_world env.(incomingDataSocket) w).
    rewrite (drain_loop_step_zero fuel env buf w d rest Hw).
    destruct env; cbn; rewrite Hw; cbn. repeat split. intros _. symmetry. apply app_nil_r.
  - inversion Hc as [|? ? Ha Hpre]; subst.
    rewrite (drain_loop_step_read fuel env buf w a (pre ++ (0, d) :: rest) Hw Ha).
    destruct (IH fuel (set_received env (env.(received) ++
       firstn (Z.to_nat (fst a)) (snd a ++ skipn (length (snd a)) buf)))
       zero_buf (recv_world env.(incomingDataSocket) w) Hpre)
      as (x & w' & Hrun & Hr & Ho & Hso & Hse & Hx).
    + cbn. rewrite Hw. reflexivity.
    + cbn in Hf. lia.
    + exists x, w'. rewrite set_received_twice in Hrun. cbn in Ho, Hso, Hse.
      repeat split; auto. intros Hd. inversion Hd as [|? ? Hda Hdpre]; subst.
      rewrite (Hx Hdpre). cbn. rewrite (firstn_data_read a _ Hda).
      rewrite app_assoc. reflexivity.
Qed.

Lemma drain_loop_error pre d rest : forall fuel env buf w,
  Forall cont_read pre -> w.(w_recv) = pre ++ (SOCKET_ERROR, d) :: rest ->
  (length pre < fuel)%nat ->
  exists env' w', drain_loop fuel env buf w = Some ((env', RError "socket error during read"), w') /\
    w'.(w_recv) = rest /\ w'.(w_os) = w.(w_os) /\ w'.(w_stdout) = w.(w_stdout) /\
    w'.(w_stderr) = w.(w_stderr).
Proof.
  induction pre as [|a pre IH]; intros fuel env buf w Hc Hw Hf;
    (destruct fuel as [|fuel]; [cbn in Hf; lia|]).
  - exists env, (recv_world env.(incomingDataSocket) w).
    rewrite (drain_loop_step_error fuel env buf w d rest Hw).
    cbn; rewrite Hw; cbn. repeat split.
  - inversion Hc as [|? ? Ha Hpre]; subst.
    rewrite (drain_loop_step_read fuel env buf w a (pre ++ (SOCKET_ERROR, d) :: rest) Hw Ha).
    destruct (IH fuel (set_received env (env.(received) ++
       firstn (Z.to_nat (fst a)) (snd a ++ skipn (length (snd a)) buf)))
       zero_buf (recv_world env.(incomingDataSocket) w) Hpre)
      as (env' & w' & Hrun & Hr & Ho & Hso & Hse).
    + cbn. rewrite Hw. reflexivity.
    + cbn in Hf. lia.
    + exists env', w'. cbn in Ho, Hso, Hse. repeat split; auto.
Qed.

(** A successful loop has met a zero-byte read, after reads that were
    neither a close nor an error. *)
Lemma drain_loop_ok_inv : forall fuel env buf w env' w',
  drain_loop fuel env buf w = Some ((env', RNil), w') -> graceful_close w.(w_recv).
Proof.
  induction fuel as [|fuel IH]; intros env buf w env' w' H; [discriminate|].
  cbn in H. unfold bind, recv in H.
  destruct (w_recv w) as [|[r data] rest] eqn:Hw; [discriminate|].
  destruct (Z.eqb_spec r 0).
  - subst. exists [], data, rest. split; [reflexivity | constructor].
  - destruct (Z.eqb_spec r SOCKET_ERROR); [discriminate|].
    apply IH in H. destruct H as (pre & d & rest' & Hpre & Hc).
    cbn in Hpre. rewrite Hw in Hpre. cbn in Hpre.
    exists ((r, data) :: pre), d, rest'. split.
    + rewrite Hpre. reflexivity.
    + constructor; [split; assumption | exact Hc].
Qed.

(** The loop only makes [recv] calls and leaves the outputs alone. *)
Lemma drain_loop_effects : forall fuel env buf w x w',
  drain_loop fuel env buf w = Some (x, w') ->
  w'.(w_os) = w.(w_os) /\ w'.(w_stdout) = w.(w_stdout) /\ w'.(w_stderr) = w.(w_stderr) /\
  exists ext, w'.(w_trace) = w.(w_trace) ++ ext /\ Forall is_recv_call ext.
Proof.
  induction fuel as [|fuel IH]; intros env buf w x w' H; [discriminate|].
  cbn in H. unfold bind, recv in H.
  destruct (w_recv w) as [|[r data] rest] eqn:Hw; [discriminate|].
  destruct (Z.eqb r 0); [|destruct (Z.eqb r SOCKET_ERROR)].
  1,2: injection H as <- <-; cbn; repeat split;
       exists [CRecv (incomingDataSocket env) buffSize 0]; split;
       [reflexivity | repeat constructor].
  apply IH in H. destruct H as (Ho & Hso & Hse & ext & Ht & Hf). cbn in *.
  repeat split; auto. exists (CRecv (incomingDataSocket env) buffSize 0 :: ext). split.
  - rewrite Ht, <- app_assoc. reflexivity.
  - constructor; [exact I | exact Hf].
Qed.

(** ** The pipeline up to [accept] *)

Definition addr9999 : sockaddr_in := sockAddrForPort_fn (to_uint16 9999).

(** The calls a run makes while every step up to [accept] succeeds. *)
Definition trace_accepted (os : OS) : list Call :=
  [CWSAStartup (MAKEWORD 2 2); CSocket AF_INET SOCK_STREAM IPPROTO_TCP;
   CBind os.(os_socket) addr9999 sizeof_sockaddr_in;
   CListen os.(os_socket) 1; CAccept os.(os_socket)].

Definition env_accepted (os : OS) : Env :=
  mkEnv (MAKEWORD 2 2) os.(os_socket) addr9999 os.(os_accept) [].

Definition world_at (os : OS) (script : list RecvAnswer) (k : nat) : World :=
  mkWorld os script (firstn k (trace_accepted os)) [] [].

(** Which step (counting its calls) fails first, and with which message;
    [None] also when [accept] never returns. *)
Definition setup_error (os : OS) : option (nat * string) :=
  if negb (os.(os_wsastartup) =? 0)
  then Some (1%nat, append "WSAStartup failed: " (to_string os.(os_wsastartup)))
  else if os.(os_socket) =? INVALID_SOCKET then Some (2%nat, "Couldn't create a tcp socket"%string)
  else if os.(os_bind) =? SOCKET_ERROR then Some (3%nat, "socket bind error"%string)
  else if os.(os_listen) =? SOCKET_ERROR then Some (4%nat, "socket listen error"%string)
  else if os.(os_accept_returns) && (os.(os_accept) =? INVALID_SOCKET)
  then Some (5%nat, "socket accept error"%string)
  else None.

Lemma run_ctx_eq os script :
  run_ctx os script =
  match setup_error os with
  | Some (k, m) =>
      Some (CtxError m, put_stdout (text_mode (bytes_of_string m ++ [newline])) (world_at os script k))
  | None =>
      if os.(os_accept_returns)
      then (c <- drainSocket (CtxEnv (env_accepted os)) ;; c' <- dump c ;; ret c')
             (world_at os script 5)
      else None
  end.
Proof.
  unfold run_ctx, main_ctx, freshContext, init, setupTcpSocket, sockAddrForPort,
    bindSocket, listenSocket, acceptSocket, errorGuard, errorGuard2, bind, ret,
    WSAStartup, socket, sys_bind, sys_listen, accept, cout_line, setup_error.
  cbn -[drain_loop INVALID_SOCKET SOCKET_ERROR drainSocket dump].
  destruct (os_wsastartup os =? 0); cbn -[drain_loop INVALID_SOCKET SOCKET_ERROR drainSocket dump];
    [|reflexivity].
  destruct (os_socket os =? INVALID_SOCKET); cbn -[drain_loop INVALID_SOCKET SOCKET_ERROR drainSocket dump];
    [reflexivity|].
  destruct (os_bind os =? SOCKET_ERROR); cbn -[drain_loop INVALID_SOCKET SOCKET_ERROR drainSocket dump];
    [reflexivity|].
  destruct (os_listen os =? SOCKET_ERROR); cbn -[drain_loop INVALID_SOCKET SOCKET_ERROR drainSocket dump];
    [reflexivity|].
  destruct (os_accept_returns os); cbn -[drain_loop INVALID_SOCKET SOCKET_ERROR drainSocket dump];
    [|reflexivity].
  destruct (os_accept os =? INVALID_SOCKET); cbn -[drain_loop INVALID_SOCKET SOCKET_ERROR drainSocket dump];
    reflexivity.
Qed.

Lemma setup_error_None os :
  setup_error os = None /\ os.(os_accept_returns) = true <-> connection_accepted os.
Proof.
  unfold setup_error, connection_accepted, setup_succeeds.
  destruct (Z.eqb_spec (os_wsastartup os) 0), (Z.eqb_spec (os_socket os) INVALID_SOCKET),
    (Z.eqb_spec (os_bind os) SOCKET_ERROR), (Z.eqb_spec (os_listen os) SOCKET_ERROR),
    (os_accept_returns os), (Z.eqb_spec (os_accept os) INVALID_SOCKET);
    cbn; split; intros H; try tauto; destruct H as [H1 H2]; try discriminate H1; try discriminate H2.
Qed.

Lemma setup_error_None_iff os :
  setup_error os = None <->
  setup_succeeds os /\ (os.(os_accept_returns) = false \/ os.(os_accept) <> INVALID_SOCKET).
Proof.
  unfold setup_error, setup_succeeds.
  destruct (Z.eqb_spec (os_wsastartup os) 0), (Z.eqb_spec (os_socket os) INVALID_SOCKET),
    (Z.eqb_spec (os_bind os) SOCKET_ERROR), (Z.eqb_spec (os_listen os) SOCKET_ERROR),
    (os_accept_returns os), (Z.eqb_spec (os_accept os) INVALID_SOCKET);
    cbn; intuition (try discriminate; try congruence).
Qed.

Lemma run_ctx_connected os script :
  connection_accepted os ->
  run_ctx os script =
  (c <- drainSocket (CtxEnv (env_accepted os)) ;; c' <- dump c ;; ret c') (world_at os script 5).
Proof.
  intros Hacc. apply setup_error_None in Hacc as [Hse Hr].
  rewrite run_ctx_eq, Hse, Hr. reflexivity.
Qed.

Lemma setup_error_blocks os script :
  setup_error os = None -> os.(os_accept_returns) = false -> run_ctx os script = None.
Proof. intros Hse Hr. rewrite run_ctx_eq, Hse, Hr. reflexivity. Qed.

Lemma run_from_ctx os script :
  run os script =
  match run_ctx os script with Some (c, w) => Some (getExitCode c, w) | None => None end.
Proof.
  unfold run, run_ctx, main, bind, ret. destruct (main_ctx _) as [[c w]|]; reflexivity.
Qed.

Lemma drainSocket_env env w :
  drainSocket (CtxEnv env) w =
  match drain_loop (S (length w.(w_recv))) env zero_buf w with
  | Some ((env', RNil), w') => Some (CtxEnv env', w')
  | Some ((_, RError m), w') => Some (CtxError m, w')
  | None => None
  end.
Proof.
  unfold drainSocket, errorGuard, bind, ret.
  destruct (drain_loop _ _ _ _) as [[[e []] w']|]; reflexivity.
Qed.

(** What the standard output stream keeps of an [fwrite]. *)
Definition stdout_keeps (os : OS) (data : list byte) : list byte :=
  text_mode (match os.(os_fwrite_cap) with None => data | Some k => firstn k data end).

Lemma dump_env env w :
  dump (CtxEnv env) w =
  Some (CtxEnv env, put_stdout (stdout_keeps w.(w_os) env.(received))
                      (log (CFwrite env.(received)) w)).
Proof. reflexivity. Qed.

Lemma dump_error m w :
  dump (CtxError m) w = Some (CtxError m, put_stdout (text_mode (bytes_of_string m ++ [newline])) w).
Proof. reflexivity. Qed.

Lemma chunks_read chunks :
  Forall chunk_ok chunks ->
  Forall data_read (map chunk_answer chunks) /\ Forall cont_read (map chunk_answer chunks).
Proof.
  induction 1 as [|c cs [Hne Hle] _ [IH1 IH2]]; cbn; [split; constructor|].
  assert (0 < length c)%nat by (destruct c; [contradiction | cbn; lia]).
  unfold buffSize in Hle. change (Z.to_nat 4096) with 4096%nat in Hle.
  split; constructor; auto; unfold data_read, cont_read, SOCKET_ERROR, buffSize; cbn; lia.
Qed.

Lemma concat_chunks chunks : concat (map snd (map chunk_answer chunks)) = concat chunks.
Proof. rewrite map_map. cbn. rewrite map_id. reflexivity. Qed.

(** A peer that connects, sends [chunks] and closes: the run ends
    active, the buffer holds the chunks in order, and [fwrite] is handed
    exactly that buffer. *)
Lemma run_ctx_chunks os chunks d rest :
  connection_accepted os -> Forall chunk_ok chunks ->
  exists w,
    run_ctx os (map chunk_answer chunks ++ (0, d) :: rest) =
      Some (CtxEnv (set_received (env_accepted os) (concat chunks)), w) /\
    w.(w_stdout) = stdout_keeps os (concat chunks) /\ w.(w_stderr) = [].
Proof.
  intros Hacc Hch. destruct (chunks_read chunks Hch) as [Hd Hc].
  rewrite (run_ctx_connected os _ Hacc).
  set (script := map chunk_answer chunks ++ (0, d) :: rest).
  destruct (drain_loop_close (map chunk_answer chunks) d rest (S (length script))
              (env_accepted os) zero_buf (world_at os script 5) Hc eq_refl)
    as (x & w' & Hrun & _ & Ho & Hso & Hse & Hx).
  { unfold script. rewrite length_app. cbn. lia. }
  rewrite (Hx Hd), concat_chunks in Hrun. cbn in Ho, Hso, Hse.
  unfold bind at 1. rewrite drainSocket_env. cbn [w_recv world_at]. rewrite Hrun.
  unfold bind. rewrite dump_env. cbn.
  eexists. split; [reflexivity|]. cbn. rewrite Hso, Hse, Ho. split; reflexivity.
Qed.

(** ** Claims *)

(** C1 (round-trip fidelity), evaluated: the program never switches
    standard output to binary mode, so the C runtime's text-mode stream
    turns every 0x0A that [fwrite] is given into 0x0D 0x0A.  When the peer
    connects, sends the single byte 0x0A and closes, the run exits with
    the success code but standard output holds [0x0D; 0x0A], not the byte
    sequence that was received. *)
Theorem round_trip_newline :
  option_map (fun cw => (fst cw, (snd cw).(w_stdout))) (run os_ok [(1, [newline]); (0, [])]) =
  Some (EXIT_SUCCESS, [Byte.x0d; newline]) /\
  [Byte.x0d; newline] <> [newline].
Proof. split; [vm_compute; reflexivity | discriminate]. Qed.

(** C2 (failure reporting channel), evaluated: on a failed context the
    report step writes the message and a line end (CR LF on the text-mode
    stream) to standard OUTPUT (the code uses [std::cout]) and nothing to
    standard error; a run whose bind
    fails ends with the diagnostic on standard output. *)
Theorem failure_report_channel :
  (forall m w, exists w',
     dump (CtxError m) w = Some (CtxError m, w') /\
     w'.(w_stdout) = w.(w_stdout) ++ text_mode (bytes_of_string m ++ [newline]) /\
     w'.(w_stderr) = w.(w_stderr)) /\
  option_map (fun '(c, w) => (c, w.(w_stdout), w.(w_stderr))) (run os_bind_fails [(0, [])])
  = Some (EXIT_FAILURE, bytes_of_string "socket bind error" ++ [Byte.x0d; newline], []).
Proof.
  split.
  - intros m w. eexists. rewrite dump_error. split; [reflexivity | split; reflexivity].
  - vm_compute. reflexivity.
Qed.

(** C3 (Failed is absorbing): every pipeline step before the report,
    applied to a failed context, returns the same failed context and
    leaves the world untouched (no call is made, nothing is written). *)
Theorem failed_is_absorbing (m : string) (port : Z) (w : World) :
  init (CtxError m) w = Some (CtxError m, w) /\
  setupTcpSocket (CtxError m) w = Some (CtxError m, w) /\
  sockAddrForPort (CtxError m) port w = Some (CtxError m, w) /\
  bindSocket (CtxError m) w = Some (CtxError m, w) /\
  listenSocket (CtxError m) w = Some (CtxError m, w) /\
  acceptSocket (CtxError m) w = Some (CtxError m, w) /\
  drainSocket (CtxError m) w = Some (CtxError m, w).
Proof. repeat split. Qed.

(** C4 (exit status correctness): the exit code of a run is the success
    code exactly when the connection was accepted and the drain met a
    zero-byte read before any error, and exactly when the final context
    is active; it is the failure code exactly when that context is
    failed. *)
Theorem exit_status_correctness (os : OS) (script : list RecvAnswer) (ctx : Context)
    (w : World) :
  run_ctx os script = Some (ctx, w) ->
  run os script = Some (getExitCode ctx, w) /\
  (getExitCode ctx = EXIT_SUCCESS <-> connection_accepted os /\ graceful_close script) /\
  (getExitCode ctx = EXIT_SUCCESS <-> exists env, ctx = CtxEnv env) /\
  (getExitCode ctx = EXIT_FAILURE <-> exists m, ctx = CtxError m).
Proof.
  intros H. split; [rewrite run_from_ctx, H; reflexivity|].
  split; [|destruct ctx; cbn; split; split; intros;
           solve [eauto | discriminate | destruct H0 as [? H0]; discriminate H0]].
  rewrite run_ctx_eq in H. destruct (setup_error os) as [[k m]|] eqn:Hse.
  - injection H as <- _. cbn. split; [discriminate|].
    intros [Hacc _]. apply setup_error_None in Hacc as [Hacc _]. congruence.
  - destruct (os_accept_returns os) eqn:Hr; [|discriminate H].
    assert (Hacc : connection_accepted os) by (apply setup_error_None; split; assumption).
    unfold bind at 1 in H. rewrite drainSocket_env in H. cbn [w_recv world_at] in H.
    destruct (drain_loop _ _ _ _) as [[[e' [|m]] w']|] eqn:Hd; [| |discriminate].
    + unfold bind in H. rewrite dump_env in H. injection H as <- _. cbn.
      split; [|reflexivity]. intros _. split; [exact Hacc|].
      exact (drain_loop_ok_inv _ _ _ _ _ _ Hd).
    + unfold bind in H. rewrite dump_error in H. injection H as <- _. cbn.
      split; [discriminate|]. intros [_ (pre & d & rest & Hs & Hc)].
      destruct (drain_loop_close pre d rest (S (length script)) (env_accepted os) zero_buf
                  (world_at os script 5) Hc Hs) as (x & w'' & Hrun & _).
      { rewrite Hs, length_app. cbn. lia. }
      congruence.
Qed.

Lemma exit_status_correctness_witness :
  exists ctx w, run_ctx os_ok [(5, hello); (0, [])] = Some (ctx, w) /\
  (run os_ok [(5, hello); (0, [])] = Some (getExitCode ctx, w) /\
   (getExitCode ctx = EXIT_SUCCESS <->
      connection_accepted os_ok /\ graceful_close [(5, hello); (0, [])]) /\
   (getExitCode ctx = EXIT_SUCCESS <-> exists env, ctx = CtxEnv env) /\
   (getExitCode ctx = EXIT_FAILURE <-> exists m, ctx = CtxError m)).
Proof.
  destruct (run_ctx os_ok [(5, hello); (0, [])]) as [[ctx w]|] eqn:E.
  - exists ctx, w. split; [reflexivity|].
    exact (exit_status_correctness os_ok [(5, hello); (0, [])] ctx w E).
  - vm_compute in E. discriminate E.
Defined.

Lemma data_read_cont a : data_read a -> cont_read a.
Proof. destruct a; unfold data_read, cont_read, SOCKET_ERROR; cbn; lia. Qed.

Lemma wf_cont_data a : wf_answer a -> cont_read a -> data_read a.
Proof. unfold wf_answer, cont_read. tauto. Qed.

(** C5 (drain termination and error transition): for answers that honour
    [recv]'s contract, (a) data reads followed by a zero-byte read end the
    drain successfully, the buffer grown by exactly the bytes read, in
    order; (b) data reads followed by a transport error end it in the
    failed state with the read diagnostic, the partial capture dropped
    with the environment, and the report then writes only the
    diagnostic; (c) a successful drain always ended on a zero-byte read
    after data reads only. *)
Theorem drain_termination (env : Env) (w : World) :
  wf_script w.(w_recv) ->
  (forall pre d rest, w.(w_recv) = pre ++ (0, d) :: rest -> Forall data_read pre ->
     exists w', drainSocket (CtxEnv env) w =
       Some (CtxEnv (set_received env (env.(received) ++ concat (map snd pre))), w') /\
       w'.(w_recv) = rest) /\
  (forall pre d rest, w.(w_recv) = pre ++ (SOCKET_ERROR, d) :: rest -> Forall data_read pre ->
     exists w', drainSocket (CtxEnv env) w = Some (CtxError "socket error during read", w') /\
       w'.(w_recv) = rest /\ w'.(w_stdout) = w.(w_stdout) /\
       dump (CtxError "socket error during read") w' =
         Some (CtxError "socket error during read",
               put_stdout (text_mode (bytes_of_string "socket error during read" ++ [newline])) w')) /\
  (forall env' w', drainSocket (CtxEnv env) w = Some (CtxEnv env', w') ->
     exists pre d rest, w.(w_recv) = pre ++ (0, d) :: rest /\ Forall data_read pre /\
       env' = set_received env (env.(received) ++ concat (map snd pre))).
Proof.
  intros Hwf. rewrite drainSocket_env. split; [|split].
  - intros pre d rest Hs Hd.
    destruct (drain_loop_close pre d rest (S (length (w_recv w))) env zero_buf w
                (Forall_impl _ data_read_cont Hd) Hs) as (x & w' & Hrun & Hr & _ & _ & _ & Hx).
    { rewrite Hs, length_app. cbn. lia. }
    rewrite Hrun, (Hx Hd). eauto.
  - intros pre d rest Hs Hd.
    destruct (drain_loop_error pre d rest (S (length (w_recv w))) env zero_buf w
                (Forall_impl _ data_read_cont Hd) Hs) as (e' & w' & Hrun & Hr & _ & Hso & _).
    { rewrite Hs, length_app. cbn. lia. }
    rewrite Hrun. exists w'. repeat split; auto.
  - intros env' w' H.
    destruct (drain_loop _ _ _ _) as [[[e [|m]] w'']|] eqn:Hd; try discriminate.
    injection H as <- _.
    destruct (drain_loop_ok_inv _ _ _ _ _ _ Hd) as (pre & d & rest & Hs & Hc).
    assert (Hpre : Forall data_read pre).
    { unfold wf_script in Hwf. rewrite Hs in Hwf. apply Forall_app in Hwf as [Hwf _].
      clear Hs Hd. induction pre as [|a pre IH]; [constructor|].
      inversion Hwf; inversion Hc; subst. constructor; auto. apply wf_cont_data; auto. }
    destruct (drain_loop_close pre d rest (S (length (w_recv w))) env zero_buf w Hc Hs)
      as (x & w2 & Hrun & _ & _ & _ & _ & Hx).
    { rewrite Hs, length_app. cbn. lia. }
    rewrite Hd in Hrun. injection Hrun as -> _.
    exists pre, d, rest. rewrite (Hx Hpre). auto.
Qed.

Lemma drain_termination_witness :
  wf_script (w_recv (world0 os_ok [(5, hello); (SOCKET_ERROR, []); (0, [])])) /\
  exists w', drainSocket (CtxEnv env0) (world0 os_ok [(5, hello); (SOCKET_ERROR, []); (0, [])]) =
    Some (CtxError "socket error during read", w') /\ w'.(w_recv) = [(0, [])] /\
    w'.(w_stdout) = [] /\
    dump (CtxError "socket error during read") w' =
      Some (CtxError "socket error during read",
            put_stdout (text_mode (bytes_of_string "socket error during read" ++ [newline])) w').
Proof.
  assert (Hwf : wf_script (w_recv (world0 os_ok [(5, hello); (SOCKET_ERROR, []); (0, [])]))).
  { unfold wf_script, wf_answer, data_read, SOCKET_ERROR, buffSize; cbn.
    repeat apply Forall_cons; try apply Forall_nil; cbn; lia. }
  split; [exact Hwf|].
  destruct (drain_termination env0 _ Hwf) as [_ [Herr _]].
  apply (Herr [(5, hello)] [] [(0, [])] eq_refl).
  repeat apply Forall_cons; try apply Forall_nil.
  unfold data_read, buffSize; cbn; lia.
Defined.

(** C6 (bind-failure short-circuit), evaluated at a bind failure: the
    context becomes the bind error, no [accept] and no [recv] is made,
    the exit code is the failure code, but the diagnostic is written to
    standard OUTPUT, not standard error; the same [std::cout] of [dump]
    as in C2. *)
Theorem bind_failure_short_circuit :
  option_map (fun '(c, w) => (c, w.(w_trace), w.(w_stdout), w.(w_stderr)))
    (run_ctx os_bind_fails [(5, hello); (0, [])]) =
  Some (CtxError "socket bind error", firstn 3 (trace_accepted os_bind_fails),
        bytes_of_string "socket bind error" ++ [Byte.x0d; newline], []) /\
  option_map fst (run os_bind_fails [(5, hello); (0, [])]) = Some EXIT_FAILURE.
Proof. split; vm_compute; reflexivity. Qed.

(** C7 (chunk-boundary insensitivity): two runs against the same
    connected system, whose peers send chunkings of the same bytes, end
    in the same active context, holding those bytes, and write the same
    standard output. *)
Theorem chunk_boundary_insensitivity (os : OS) (c1 c2 : list (list byte))
    (d1 d2 : list byte) (r1 r2 : list RecvAnswer) :
  connection_accepted os -> Forall chunk_ok c1 -> Forall chunk_ok c2 ->
  concat c1 = concat c2 ->
  exists env w1 w2,
    run_ctx os (map chunk_answer c1 ++ (0, d1) :: r1) = Some (CtxEnv env, w1) /\
    run_ctx os (map chunk_answer c2 ++ (0, d2) :: r2) = Some (CtxEnv env, w2) /\
    env.(received) = concat c1 /\ w1.(w_stdout) = w2.(w_stdout).
Proof.
  intros Hacc H1 H2 Hc.
  destruct (run_ctx_chunks os c1 d1 r1 Hacc H1) as (w1 & E1 & S1 & _).
  destruct (run_ctx_chunks os c2 d2 r2 Hacc H2) as (w2 & E2 & S2 & _).
  rewrite <- Hc in E2, S2.
  exists (set_received (env_accepted os) (concat c1)), w1, w2.
  repeat split; auto. congruence.
Qed.

Lemma chunk_boundary_insensitivity_witness :
  connection_accepted os_ok /\
  exists env w1 w2,
    run_ctx os_ok (map chunk_answer [hello] ++ [(0, [])]) = Some (CtxEnv env, w1) /\
    run_ctx os_ok (map chunk_answer (map (fun b => [b]) hello) ++ [(0, [])]) =
      Some (CtxEnv env, w2) /\
    env.(received) = concat [hello] /\ w1.(w_stdout) = w2.(w_stdout).
Proof.
  assert (Hacc : connection_accepted os_ok).
  { unfold connection_accepted, setup_succeeds, os_ok, INVALID_SOCKET, SOCKET_ERROR; cbn.
    repeat split; try reflexivity; lia. }
  split; [exact Hacc|].
  apply (chunk_boundary_insensitivity os_ok [hello] (map (fun b => [b]) hello) [] [] [] []
           Hacc).
  - repeat apply Forall_cons; try apply Forall_nil.
    unfold chunk_ok; split; [discriminate | vm_compute; lia].
  - cbn. repeat apply Forall_cons; try apply Forall_nil;
      (unfold chunk_ok; split; [discriminate | vm_compute; lia]).
  - reflexivity.
Defined.

(** ** Configuration of the listener *)

Definition is_accept_b (c : Call) : bool :=
  match c with CAccept _ => true | _ => false end.

Definition count_accepts (trace : list Call) : nat := length (filter is_accept_b trace).

Lemma count_accepts_app l1 l2 : count_accepts (l1 ++ l2) = (count_accepts l1 + count_accepts l2)%nat.
Proof. unfold count_accepts. rewrite filter_app, length_app. reflexivity. Qed.

Lemma count_accepts_io ext :
  Forall (fun c => is_recv_call c \/ exists data, c = CFwrite data) ext ->
  count_accepts ext = 0%nat.
Proof.
  induction 1 as [|c ext Hc _ IH]; [reflexivity|].
  destruct Hc as [Hc | [data ->]]; [destruct c; try contradiction|]; exact IH.
Qed.

Lemma setup_error_step os k m :
  setup_error os = Some (k, m) -> (k <= 5)%nat /\ (k = 5%nat <-> setup_succeeds os).
Proof.
  unfold setup_error, setup_succeeds.
  destruct (Z.eqb_spec (os_wsastartup os) 0), (Z.eqb_spec (os_socket os) INVALID_SOCKET),
    (Z.eqb_spec (os_bind os) SOCKET_ERROR), (Z.eqb_spec (os_listen os) SOCKET_ERROR),
    (Z.eqb_spec (os_accept os) INVALID_SOCKET), (os_accept_returns os);
    cbn; intros H; try discriminate H; injection H as <- _; split; try lia;
    split; intros; try tauto; try lia.
Qed.

Lemma in_firstn_in {A} (x : A) k l : In x (firstn k l) -> In x l.
Proof. intros H. rewrite <- (firstn_skipn k l). apply in_or_app. left. exact H. Qed.

(** The calls of a terminating run: a prefix of the setup calls, then
    (once connected) [recv] calls and one [fwrite]. *)
Lemma run_ctx_trace os script ctx w :
  run_ctx os script = Some (ctx, w) ->
  exists k ext, w.(w_trace) = firstn k (trace_accepted os) ++ ext /\ (k <= 5)%nat /\
    (k = 5%nat <-> setup_succeeds os) /\
    Forall (fun c => is_recv_call c \/ exists data, c = CFwrite data) ext.
Proof.
  intros H. rewrite run_ctx_eq in H. destruct (setup_error os) as [[k m]|] eqn:Hse.
  - injection H as _ <-. exists k, []. destruct (setup_error_step os k m Hse).
    rewrite app_nil_r. auto.
  - destruct (os_accept_returns os) eqn:Hr; [|discriminate H].
    assert (Hacc : connection_accepted os) by (apply setup_error_None; split; assumption).
    exists 5%nat. unfold bind at 1 in H. rewrite drainSocket_env in H.
    destruct (drain_loop _ _ _ _) as [[[e' r] w']|] eqn:Hd; [|discriminate].
    destruct (drain_loop_effects _ _ _ _ _ _ Hd) as (_ & _ & _ & ext & Ht & Hf).
    cbn in Ht. assert (Hf' := Forall_impl (fun c => is_recv_call c \/ exists data, c = CFwrite data)
                               (fun c Hc => or_introl Hc) Hf).
    destruct r as [|m]; unfold bind in H.
    + rewrite dump_env in H. injection H as _ <-. cbn.
      exists (ext ++ [CFwrite (received e')]). rewrite Ht.
      split; [reflexivity|]. split; [lia|]. split; [split; [intros _; exact (proj1 Hacc) | reflexivity]|].
      apply Forall_app. split; [exact Hf'|]. constructor; [right; eauto | constructor].
    + rewrite dump_error in H. injection H as _ <-. cbn. exists ext. rewrite Ht.
      split; [reflexivity|]. split; [lia|]. split; [split; [intros _; exact (proj1 Hacc) | reflexivity]|].
      exact Hf'.
Qed.

(** C8, as amended: every [bind] a terminating run makes uses the IPv4
    wildcard address and port 9999 (a constant of [main]; [run] takes no
    configuration), every [listen] uses a backlog of 1, and at most one
    [accept] is made: exactly one when the steps before it succeed, none
    otherwise. *)
Theorem fixed_configuration (os : OS) (script : list RecvAnswer) (ctx : Context) (w : World) :
  run_ctx os script = Some (ctx, w) ->
  (forall s a l, In (CBind s a l) w.(w_trace) ->
     a = mk_sockaddr_in AF_INET (htons 9999) 0 0 0 0 /\ l = sizeof_sockaddr_in) /\
  (forall s b, In (CListen s b) w.(w_trace) -> b = 1) /\
  (count_accepts w.(w_trace) <= 1)%nat /\
  (count_accepts w.(w_trace) = 1%nat <-> setup_succeeds os).
Proof.
  intros H. destruct (run_ctx_trace os script ctx w H) as (k & ext & Ht & Hk & Hk5 & Hext).
  assert (Hio : forall c, In c ext -> is_recv_call c \/ exists data, c = CFwrite data)
    by (apply Forall_forall; exact Hext).
  rewrite Ht, count_accepts_app, (count_accepts_io ext Hext), Nat.add_0_r.
  split; [|split; [|split]].
  - intros s a l Hin. apply in_app_or in Hin as [Hin | Hin].
    + apply in_firstn_in in Hin. cbn in Hin.
      destruct Hin as [Hin | [Hin | [Hin | [Hin | [Hin | []]]]]]; try discriminate Hin.
      injection Hin as _ <- <-. split; reflexivity.
    + destruct (Hio _ Hin) as [[] | [data Hd]]. discriminate Hd.
  - intros s b Hin. apply in_app_or in Hin as [Hin | Hin].
    + apply in_firstn_in in Hin. cbn in Hin.
      destruct Hin as [Hin | [Hin | [Hin | [Hin | [Hin | []]]]]]; try discriminate Hin.
      injection Hin as _ <-. reflexivity.
    + destruct (Hio _ Hin) as [[] | [data Hd]]. discriminate Hd.
  - destruct k as [|[|[|[|[|[|k]]]]]]; cbn; lia.
  - rewrite <- Hk5. destruct k as [|[|[|[|[|[|k]]]]]]; cbn; split; intros; lia.
Qed.

Lemma fixed_configuration_witness :
  exists ctx w, run_ctx os_ok [(0, [])] = Some (ctx, w) /\
  ((forall s a l, In (CBind s a l) w.(w_trace) ->
      a = mk_sockaddr_in AF_INET (htons 9999) 0 0 0 0 /\ l = sizeof_sockaddr_in) /\
   (forall s b, In (CListen s b) w.(w_trace) -> b = 1) /\
   (count_accepts w.(w_trace) <= 1)%nat /\
   (count_accepts w.(w_trace) = 1%nat <-> setup_succeeds os_ok)).
Proof.
  destruct (run_ctx os_ok [(0, [])]) as [[ctx w]|] eqn:E.
  - exists ctx, w. split; [reflexivity|]. exact (fixed_configuration os_ok [(0, [])] ctx w E).
  - vm_compute in E. discriminate E.
Defined.

(** C8 as stated fails: a run whose bind fails makes no [accept] call. *)
Lemma fixed_configuration_cex :
  ~ (forall os script ctx w, run_ctx os script = Some (ctx, w) ->
       count_accepts w.(w_trace) = 1%nat).
Proof.
  intros H. destruct (run_ctx os_bind_fails [(0, [])]) as [[ctx w]|] eqn:E.
  - specialize (H _ _ _ _ E). vm_compute in E. injection E as _ <-.
    vm_compute in H. discriminate H.
  - vm_compute in E. discriminate E.
Qed.

(** A system on which every call fails. *)
Definition os_all_fail : OS := mkOS 10091 INVALID_SOCKET SOCKET_ERROR SOCKET_ERROR INVALID_SOCKET true None.
Definition world_all_fail : World := world0 os_all_fail [(SOCKET_ERROR, [])].

(** C9 (address setup is infallible): on an active context,
    [sockAddrForPort] always succeeds, storing the wildcard address for
    the port reduced to 16 bits and touching nothing else; each of the
    other six steps before the report can fail. *)

Theorem sockAddrForPort_infallible :
  (forall env port w,
     sockAddrForPort (CtxEnv env) port w =
     Some (CtxEnv (set_addr env (sockAddrForPort_fn (to_uint16 port))), w)) /\
  (exists env w m w', init (CtxEnv env) w = Some (CtxError m, w')) /\
  (exists env w m w', setupTcpSocket (CtxEnv env) w = Some (CtxError m, w')) /\
  (exists env w m w', bindSocket (CtxEnv env) w = Some (CtxError m, w')) /\
  (exists env w m w', listenSocket (CtxEnv env) w = Some (CtxError m, w')) /\
  (exists env w m w', acceptSocket (CtxEnv env) w = Some (CtxError m, w')) /\
  (exists env w m w', drainSocket (CtxEnv env) w = Some (CtxError m, w')).
Proof.
  split; [reflexivity|].
  repeat split; exists env0, world_all_fail; do 2 eexists; vm_compute; reflexivity.
Qed.

(** C10 (stdout write failures are ignored): the report step returns the
    context it was given whatever [fwrite] manages to write, so the exit
    code is that of the context before the report; a stream that takes
    none of the bytes still yields the success code. *)
Theorem stdout_write_unchecked :
  (forall ctx w, exists w', dump ctx w = Some (ctx, w')) /\
  (forall env w,
     dump (CtxEnv env) w =
     Some (CtxEnv env, put_stdout (stdout_keeps w.(w_os) env.(received))
                         (log (CFwrite env.(received)) w))) /\
  option_map (fun '(c, w) => (c, w.(w_stdout)))
    (run (mkOS 0 100 0 0 200 true (Some 0%nat)) [(5, hello); (0, [])]) = Some (EXIT_SUCCESS, []).
Proof.
  split; [|split].
  - intros [env | m] w; eexists; [apply dump_env | apply dump_error].
  - exact dump_env.
  - vm_compute. reflexivity.
Qed.

(** ** Further properties of the code *)

(** *** The port in [sockAddrForPort] *)

Lemma htons_low16 p : htons p = htons (to_uint16 p).
Proof.
  unfold htons, to_uint16. f_equal.
  - f_equal. rewrite <- Z.land_assoc. reflexivity.
  - rewrite Z.shiftr_land, <- Z.land_assoc. reflexivity.
Qed.

(** Exhaustive check of a property on [p .. p+n-1]. *)
Fixpoint all_from (f : Z -> bool) (n : nat) (p : Z) : bool :=
  match n with
  | O => true
  | S n' => f p && all_from f n' (p + 1)
  end.

Lemma all_from_spec f n : forall p, all_from f n p = true ->
  forall q, p <= q < p + Z.of_nat n -> f q = true.
Proof.
  induction n as [|n IH]; cbn; intros p H q Hq; [lia|].
  apply andb_true_iff in H as [H1 H2].
  destruct (Z.eq_dec q p) as [->|]; [exact H1|]. apply (IH (p + 1)); [exact H2 | lia].
Qed.

Definition htons_ok (p : Z) : bool :=
  (0 <=? htons p) && (htons p <? 65536) && (htons (htons p) =? p).

Lemma htons_ok_all : all_from htons_ok (Z.to_nat 65536) 0 = true.
Proof. vm_compute. reflexivity. Qed.

(** The port stored by [::sockAddrForPort] is a 16-bit value from which
    [ntohs] (the same byte swap) gives back the port. *)
Theorem sockAddrForPort_port_roundtrip (port : Z) :
  0 <= port < 65536 ->
  0 <= sin_port (sockAddrForPort_fn port) < 65536 /\
  htons (sin_port (sockAddrForPort_fn port)) = port.
Proof.
  intros Hp. cbn.
  pose proof (all_from_spec htons_ok (Z.to_nat 65536) 0 htons_ok_all port) as H.
  rewrite Z2Nat.id in H by lia. specialize (H Hp).
  unfold htons_ok in H. apply andb_true_iff in H as [H H3]. apply andb_true_iff in H as [H1 H2].
  apply Z.leb_le in H1. apply Z.ltb_lt in H2. apply Z.eqb_eq in H3. lia.
Qed.

Lemma sockAddrForPort_port_roundtrip_witness :
  0 <= 9999 < 65536 /\
  0 <= sin_port (sockAddrForPort_fn 9999) < 65536 /\
  htons (sin_port (sockAddrForPort_fn 9999)) = 9999.
Proof. split; [lia | apply sockAddrForPort_port_roundtrip; lia]. Defined.

(** *** The calls of the drain loop *)

(** The loop consumes a non-empty run of answers and makes one [recv]
    of [buffSize] bytes on the accepted socket for each. *)
Lemma drain_loop_recv_calls : forall fuel env buf w x w',
  drain_loop fuel env buf w = Some (x, w') ->
  exists consumed, w.(w_recv) = consumed ++ w'.(w_recv) /\
    w'.(w_trace) = w.(w_trace) ++ repeat (CRecv env.(incomingDataSocket) buffSize 0)
                                         (length consumed).
Proof.
  induction fuel as [|fuel IH]; intros env buf w x w' H; [discriminate|].
  cbn in H. unfold bind, recv in H.
  destruct (w_recv w) as [|[r data] rest] eqn:Hw; [discriminate|].
  destruct (Z.eqb r 0); [|destruct (Z.eqb r SOCKET_ERROR)].
  1,2: injection H as <- <-; exists [(r, data)]; cbn; rewrite Hw; split; reflexivity.
  apply IH in H. destruct H as (consumed & Hc & Ht). cbn in Hc, Ht.
  rewrite Hw in Hc. cbn in Hc.
  exists ((r, data) :: consumed). split; [rewrite Hc; reflexivity|].
  rewrite Ht, <- app_assoc. reflexivity.
Qed.

(** A loop whose answers all continue never returns. *)
Lemma drain_loop_blocks : forall fuel env buf w,
  Forall cont_read w.(w_recv) -> drain_loop fuel env buf w = None.
Proof.
  induction fuel as [|fuel IH]; intros env buf w H; [reflexivity|].
  destruct (w_recv w) as [|a rest] eqn:Hw.
  - cbn. unfold bind, recv. rewrite Hw. reflexivity.
  - inversion H as [|? ? Ha Hrest]; subst.
    rewrite (drain_loop_step_read fuel env buf w a rest Hw Ha). apply IH.
    cbn. rewrite Hw. exact Hrest.
Qed.

(** A loop ending in error met a [SOCKET_ERROR] answer after answers
    that continued. *)
Lemma drain_loop_error_inv : forall fuel env buf w e m w',
  drain_loop fuel env buf w = Some ((e, RError m), w') ->
  m = "socket error during read"%string /\
  exists pre d rest, w.(w_recv) = pre ++ (SOCKET_ERROR, d) :: rest /\ Forall cont_read pre.
Proof.
  induction fuel as [|fuel IH]; intros env buf w e m w' H; [discriminate|].
  cbn in H. unfold bind, recv in H.
  destruct (w_recv w) as [|[r data] rest] eqn:Hw; [discriminate|].
  destruct (Z.eqb_spec r 0); [discriminate|].
  destruct (Z.eqb_spec r SOCKET_ERROR).
  - injection H as _ <- _. subst. split; [reflexivity|].
    exists [], data, rest. split; [reflexivity | constructor].
  - apply IH in H. destruct H as (Hm & pre & d & rest' & Hpre & Hc). split; [exact Hm|].
    cbn in Hpre. rewrite Hw in Hpre. cbn in Hpre.
    exists ((r, data) :: pre), d, rest'. split.
    + rewrite Hpre. reflexivity.
    + constructor; [split; assumption | exact Hc].
Qed.

(** Either every answer continues, or there is a first one that stops. *)
Lemma first_stop (script : list RecvAnswer) :
  Forall cont_read script \/
  exists pre a rest, script = pre ++ a :: rest /\ Forall cont_read pre /\
    (fst a = 0 \/ fst a = SOCKET_ERROR).
Proof.
  induction script as [|a script IH]; [left; constructor|].
  destruct (Z.eq_dec (fst a) 0) as [H0|H0];
    [right; exists [], a, script; split; [reflexivity | split; [constructor | left; exact H0]]|].
  destruct (Z.eq_dec (fst a) SOCKET_ERROR) as [H1|H1];
    [right; exists [], a, script; split; [reflexivity | split; [constructor | right; exact H1]]|].
  destruct IH as [IH | (pre & b & rest & Hs & Hc & Hb)].
  - left. constructor; [split; assumption | exact IH].
  - right. exists (a :: pre), b, rest. split; [rewrite Hs; reflexivity|].
    split; [constructor; [split; assumption | exact Hc] | exact Hb].
Qed.

(** *** Whole runs *)

(** A connected run whose peer closes after [pre] makes, in order, the
    five setup calls, one [recv] per answer up to and including the
    close, all on the accepted socket, and one [fwrite] of the buffer;
    the answers after the close are never read. *)
Theorem run_trace_graceful (os : OS) (pre : list RecvAnswer) (d : list byte)
    (rest : list RecvAnswer) :
  connection_accepted os -> Forall cont_read pre ->
  exists data w,
    run_ctx os (pre ++ (0, d) :: rest) = Some (CtxEnv (set_received (env_accepted os) data), w) /\
    w.(w_trace) = trace_accepted os ++
                  repeat (CRecv os.(os_accept) buffSize 0) (S (length pre)) ++ [CFwrite data] /\
    w.(w_recv) = rest.
Proof.
  intros Hacc Hc. rewrite (run_ctx_connected os _ Hacc).
  set (script := pre ++ (0, d) :: rest).
  destruct (drain_loop_close pre d rest (S (length script)) (env_accepted os) zero_buf
              (world_at os script 5) Hc eq_refl) as (x & w' & Hrun & Hr & _).
  { unfold script. rewrite length_app. cbn. lia. }
  destruct (drain_loop_recv_calls _ _ _ _ _ _ Hrun) as (consumed & Hcons & Ht).
  assert (Hlen : length consumed = S (length pre)).
  { cbn in Hcons. rewrite Hr in Hcons. unfold script in Hcons.
    apply (f_equal (@length _)) in Hcons. rewrite !length_app in Hcons. cbn in Hcons. lia. }
  unfold bind at 1. rewrite drainSocket_env. cbn [w_recv world_at]. rewrite Hrun.
  unfold bind. rewrite dump_env.
  exists x. eexists. split; [reflexivity|]. cbn. split.
  - rewrite Ht, Hlen. cbn. try rewrite <- app_assoc. reflexivity.
  - exact Hr.
Qed.

Lemma run_trace_graceful_witness :
  connection_accepted os_ok /\ Forall cont_read [(5, hello)] /\
  exists data w,
    run_ctx os_ok ([(5, hello)] ++ [(0, [])]) =
      Some (CtxEnv (set_received (env_accepted os_ok) data), w) /\
    w.(w_trace) = trace_accepted os_ok ++
                  repeat (CRecv os_ok.(os_accept) buffSize 0) (S (length [(5, hello)])) ++
                  [CFwrite data] /\
    w.(w_recv) = [].
Proof.
  assert (Hacc : connection_accepted os_ok).
  { unfold connection_accepted, setup_succeeds, os_ok, INVALID_SOCKET, SOCKET_ERROR; cbn.
    repeat split; try reflexivity; lia. }
  assert (Hc : Forall cont_read [(5, hello)]).
  { apply Forall_cons; [|apply Forall_nil]. unfold cont_read, SOCKET_ERROR; cbn; lia. }
  split; [exact Hacc|]. split; [exact Hc|].
  exact (run_trace_graceful os_ok [(5, hello)] [] [] Hacc Hc).
Defined.

(** A run never returns exactly when the four setup steps succeed and
    then either no peer ever connects (the program waits in [accept]
    forever) or a connection is accepted and no answer of the peer is a
    close or an error (the program waits in [recv] forever). *)
Theorem run_blocks_iff (os : OS) (script : list RecvAnswer) :
  run os script = None <->
  setup_succeeds os /\
  (os.(os_accept_returns) = false \/
   (os.(os_accept) <> INVALID_SOCKET /\ Forall cont_read script)).
Proof.
  rewrite run_from_ctx, run_ctx_eq.
  destruct (setup_error os) as [[k m]|] eqn:Hse.
  - split; [discriminate|]. intros [Hs Hb].
    assert (Hn : setup_error os = None).
    { apply setup_error_None_iff. split; [exact Hs|]. destruct Hb as [Hb | [Hb _]]; tauto. }
    congruence.
  - pose proof (proj1 (setup_error_None_iff os) Hse) as [Hs _].
    destruct (os_accept_returns os) eqn:Hr.
    2: { split; [intros _; split; [exact Hs | left; reflexivity] | reflexivity]. }
    assert (Hacc : connection_accepted os) by (apply setup_error_None; split; assumption).
    assert (E : (setup_succeeds os /\
                 (true = false \/ (os_accept os <> INVALID_SOCKET /\ Forall cont_read script))) <->
                Forall cont_read script).
    { destruct Hacc as (_ & _ & Ha).
      split; [intros [_ [Hf | [_ Hf]]]; [discriminate Hf | exact Hf]|].
      intros Hf. split; [exact Hs | right; split; assumption]. }
    rewrite E. clear E.
    unfold bind at 1. rewrite drainSocket_env. cbn [w_recv world_at].
    destruct (first_stop script) as [Hall | (pre & [r d] & rest & Hsc & Hc & Hrd)].
    + rewrite (drain_loop_blocks _ _ _ (world_at os script 5) Hall). tauto.
    + split; [|intros Hall; rewrite Hsc in Hall; apply Forall_app in Hall as [_ Hall];
               inversion Hall as [|? ? [Ha1 Ha2] _]; cbn in Hrd, Ha1, Ha2; lia].
      cbn in Hrd. destruct Hrd as [-> | ->].
      * destruct (drain_loop_close pre d rest (S (length script)) (env_accepted os) zero_buf
                    (world_at os script 5) Hc Hsc) as (x & w' & Hrun & _).
        { rewrite Hsc, length_app. cbn. lia. }
        rewrite Hrun. unfold bind. rewrite dump_env. discriminate.
      * destruct (drain_loop_error pre d rest (S (length script)) (env_accepted os) zero_buf
                    (world_at os script 5) Hc Hsc) as (e & w' & Hrun & _).
        { rewrite Hsc, length_app. cbn. lia. }
        rewrite Hrun. unfold bind. rewrite dump_error. discriminate.
Qed.




(** Every failed run carries one of the program's six diagnostics, and
    the diagnostic names the first step that failed. *)
Theorem run_failure_diagnostic (os : OS) (script : list RecvAnswer) (m : string) (w : World) :
  run_ctx os script = Some (CtxError m, w) ->
  (os.(os_wsastartup) <> 0 /\
     m = append "WSAStartup failed: " (to_string os.(os_wsastartup))) \/
  (os.(os_wsastartup) = 0 /\ os.(os_socket) = INVALID_SOCKET /\
     m = "Couldn't create a tcp socket"%string) \/
  (os.(os_wsastartup) = 0 /\ os.(os_socket) <> INVALID_SOCKET /\ os.(os_bind) = SOCKET_ERROR /\
     m = "socket bind error"%string) \/
  (os.(os_wsastartup) = 0 /\ os.(os_socket) <> INVALID_SOCKET /\ os.(os_bind) <> SOCKET_ERROR /\
     os.(os_listen) = SOCKET_ERROR /\ m = "socket listen error"%string) \/
  (setup_succeeds os /\ os.(os_accept) = INVALID_SOCKET /\ m = "socket accept error"%string) \/
  (connection_accepted os /\ m = "socket error during read"%string /\
     exists pre d rest, script = pre ++ (SOCKET_ERROR, d) :: rest /\ Forall cont_read pre).
Proof.
  intros H. rewrite run_ctx_eq in H. destruct (setup_error os) as [[k m']|] eqn:Hse.
  - injection H as <- _. unfold setup_error, setup_succeeds in *.
    destruct (Z.eqb_spec (os_wsastartup os) 0), (Z.eqb_spec (os_socket os) INVALID_SOCKET),
      (Z.eqb_spec (os_bind os) SOCKET_ERROR), (Z.eqb_spec (os_listen os) SOCKET_ERROR),
      (Z.eqb_spec (os_accept os) INVALID_SOCKET), (os_accept_returns os);
      cbn in Hse; try discriminate Hse; injection Hse as _ <-; tauto.
  - destruct (os_accept_returns os) eqn:Hr; [|discriminate H].
    assert (Hacc : connection_accepted os) by (apply setup_error_None; split; assumption).
    unfold bind at 1 in H. rewrite drainSocket_env in H.
    destruct (drain_loop _ _ _ _) as [[[e' [|m']] w']|] eqn:Hd; [| |discriminate];
      unfold bind in H.
    + rewrite dump_env in H. discriminate H.
    + rewrite dump_error in H. injection H as <- _.
      destruct (drain_loop_error_inv _ _ _ _ _ _ _ Hd) as [Hm Hs].
      do 5 right. split; [exact Hacc|]. split; [exact Hm | exact Hs].
Qed.

Lemma run_failure_diagnostic_witness :
  exists m w, run_ctx os_all_fail [(0, [])] = Some (CtxError m, w) /\
  ((os_all_fail.(os_wsastartup) <> 0 /\
      m = append "WSAStartup failed: " (to_string os_all_fail.(os_wsastartup))) \/
   (os_all_fail.(os_wsastartup) = 0 /\ os_all_fail.(os_socket) = INVALID_SOCKET /\
      m = "Couldn't create a tcp socket"%string) \/
   (os_all_fail.(os_wsastartup) = 0 /\ os_all_fail.(os_socket) <> INVALID_SOCKET /\
      os_all_fail.(os_bind) = SOCKET_ERROR /\ m = "socket bind error"%string) \/
   (os_all_fail.(os_wsastartup) = 0 /\ os_all_fail.(os_socket) <> INVALID_SOCKET /\
      os_all_fail.(os_bind) <> SOCKET_ERROR /\ os_all_fail.(os_listen) = SOCKET_ERROR /\
      m = "socket listen error"%string) \/
   (setup_succeeds os_all_fail /\ os_all_fail.(os_accept) = INVALID_SOCKET /\
      m = "socket accept error"%string) \/
   (connection_accepted os_all_fail /\ m = "socket error during read"%string /\
      exists pre d rest, [(0, [])] = pre ++ (SOCKET_ERROR, d) :: rest /\ Forall cont_read pre)).
Proof.
  destruct (run_ctx os_all_fail [(0, [])]) as [[[env | m] w]|] eqn:E.
  - vm_compute in E. discriminate E.
  - exists m, w. split; [reflexivity|]. exact (run_failure_diagnostic _ _ m w E).
  - vm_compute in E. discriminate E.
Defined.

(** *** The WSAStartup diagnostic *)

(** Reading a decimal string back, digit by digit from the left. *)
Fixpoint read_digits (s : string) (v : Z) : Z :=
  match s with
  | EmptyString => v
  | String c s' => read_digits s' (v * 10 + (Z.of_nat (nat_of_ascii c) - 48))
  end.

Definition read_int (s : string) : Z :=
  match s with
  | String c s' => if Ascii.eqb c "-"%char then - read_digits s' 0 else read_digits s 0
  | EmptyString => 0
  end.

Lemma digit_char d : 0 <= d < 10 ->
  Z.of_nat (nat_of_ascii (ascii_of_nat (48 + Z.to_nat d))) - 48 = d.
Proof.
  intros Hd. rewrite nat_ascii_embedding by lia. lia.
Qed.

Lemma read_digits_of_nat : forall fuel n acc v,
  0 <= n < 10 ^ Z.of_nat fuel ->
  exists k, 0 <= k /\ read_digits (digits_of_nat fuel n acc) v = read_digits acc (v * 10 ^ k + n).
Proof.
  induction fuel as [|fuel IH]; intros n acc v Hn.
  - exists 0. cbn in *. split; [lia|]. f_equal; lia.
  - rewrite Nat2Z.inj_succ, Z.pow_succ_r in Hn by lia. cbn [digits_of_nat].
    destruct (Z.ltb_spec n 10).
    + exists 1. split; [lia|]. cbn [read_digits]. rewrite digit_char by (split; [apply Z.mod_pos_bound | apply Z.mod_pos_bound]; lia).
      rewrite Z.mod_small by lia. f_equal; lia.
    + destruct (IH (n / 10) (String (ascii_of_nat (48 + Z.to_nat (n mod 10))) acc) v)
        as (k & Hk & Hr).
      { split; [apply Z.div_pos; lia | apply Z.div_lt_upper_bound; lia]. }
      exists (k + 1). split; [lia|]. rewrite Hr. cbn [read_digits].
      rewrite digit_char by (apply Z.mod_pos_bound; lia).
      f_equal. rewrite Z.pow_add_r by lia. pose proof (Z.div_mod n 10). lia.
Qed.

Lemma digits_first_char : forall fuel n acc, 0 <= n ->
  digits_of_nat (S fuel) n acc <> EmptyString /\
  forall s, digits_of_nat (S fuel) n acc = String "-"%char s -> False.
Proof.
  induction fuel as [|fuel IH]; intros n acc Hn.
  - cbn [digits_of_nat]. destruct (Z.ltb n 10); split; try discriminate;
      intros s Hs; injection Hs as Hc _;
      apply (f_equal nat_of_ascii) in Hc; rewrite nat_ascii_embedding in Hc;
      try (pose proof (Z.mod_pos_bound n 10); lia); cbn in Hc;
      pose proof (Z.mod_pos_bound n 10); lia.
  - change (digits_of_nat (S (S fuel)) n acc) with
      (if n <? 10 then String (ascii_of_nat (48 + Z.to_nat (n mod 10))) acc
       else digits_of_nat (S fuel) (n / 10) (String (ascii_of_nat (48 + Z.to_nat (n mod 10))) acc)).
    destruct (Z.ltb n 10).
    + split; [discriminate|]. intros s Hs; injection Hs as Hc _.
      apply (f_equal nat_of_ascii) in Hc; rewrite nat_ascii_embedding in Hc;
        pose proof (Z.mod_pos_bound n 10); [cbn in Hc|]; lia.
    + apply IH. apply Z.div_pos; lia.
Qed.

Lemma read_to_string n : - 10 ^ 40 < n < 10 ^ 40 -> read_int (to_string n) = n.
Proof.
  intros Hn. unfold to_string. destruct (Z.ltb_spec n 0).
  - cbn [read_int]. change (Ascii.eqb "-" "-") with true. cbv iota.
    destruct (read_digits_of_nat 40 (- n) EmptyString 0) as (k & _ & Hr);
      [replace (10 ^ Z.of_nat 40) with (10 ^ 40) by reflexivity; lia|].
    rewrite Hr. cbn. lia.
  - destruct (digits_first_char 39 n EmptyString) as [Hne Hneg]; [lia|].
    destruct (read_digits_of_nat 40 n EmptyString 0) as (k & _ & Hr);
      [replace (10 ^ Z.of_nat 40) with (10 ^ 40) by reflexivity; lia|].
    remember (digits_of_nat 40 n EmptyString) as s eqn:Hs.
    destruct s as [|c s']; [contradiction|].
    cbn [read_int]. destruct (Ascii.eqb_spec c "-"%char) as [->|].
    + exfalso. exact (Hneg s' eq_refl).
    + rewrite Hr. cbn. lia.
Qed.

Lemma append_cancel_l p s1 s2 : append p s1 = append p s2 -> s1 = s2.
Proof. induction p as [|c p IH]; cbn; [auto | intros H; injection H; auto]. Qed.

(** [init]'s diagnostic carries WSAStartup's code: two different [int]
    codes give two different messages. *)
Theorem init_diagnostic_injective (r1 r2 : Z) :
  - 2 ^ 31 <= r1 < 2 ^ 31 -> - 2 ^ 31 <= r2 < 2 ^ 31 ->
  append "WSAStartup failed: " (to_string r1) = append "WSAStartup failed: " (to_string r2) ->
  r1 = r2.
Proof.
  intros H1 H2 H. apply append_cancel_l in H.
  rewrite <- (read_to_string r1), <- (read_to_string r2), H; [reflexivity | lia | lia].
Qed.

Lemma init_diagnostic_injective_witness :
  (- 2 ^ 31 <= 10091 < 2 ^ 31 /\ - 2 ^ 31 <= 10091 < 2 ^ 31 /\
   append "WSAStartup failed: " (to_string 10091) = append "WSAStartup failed: " (to_string 10091)) /\
  10091 = 10091.
Proof.
  assert (H : append "WSAStartup failed: " (to_string 10091) =
              append "WSAStartup failed: " (to_string 10091)) by reflexivity.
  split; [split; [lia | split; [lia | exact H]]|].
  exact (init_diagnostic_injective 10091 10091 ltac:(lia) ltac:(lia) H).
Defined.

(** X8 (round trip through the text-mode stream): if the peer connects
    and the [recv] answers deliver the bytes of [B = concat chunks] in
    order, in chunks of 1 to 4096 bytes, followed by a zero-byte read,
    then the run exits with the success code and standard output holds
    [B] with every 0x0A written as 0x0D 0x0A (with a stream that accepts
    the whole write): no byte is lost, duplicated or reordered apart from
    that translation. *)
Theorem round_trip_text_mode (os : OS) (chunks : list (list byte)) (d : list byte)
    (rest : list RecvAnswer) :
  connection_accepted os -> os.(os_fwrite_cap) = None -> Forall chunk_ok chunks ->
  exists w, run os (map chunk_answer chunks ++ (0, d) :: rest) = Some (EXIT_SUCCESS, w) /\
    w.(w_stdout) = text_mode (concat chunks).
Proof.
  intros Hacc Hcap Hch.
  destruct (run_ctx_chunks os chunks d rest Hacc Hch) as (w & Hrun & Hso & _).
  exists w. rewrite run_from_ctx, Hrun. split; [reflexivity|].
  rewrite Hso. unfold stdout_keeps. rewrite Hcap. reflexivity.
Qed.

Lemma round_trip_text_mode_witness :
  connection_accepted os_ok /\ os_ok.(os_fwrite_cap) = None /\
  Forall chunk_ok [hello; [newline]] /\
  exists w, run os_ok (map chunk_answer [hello; [newline]] ++ [(0, [])]) = Some (EXIT_SUCCESS, w) /\
    w.(w_stdout) = text_mode (concat [hello; [newline]]).
Proof.
  assert (Hacc : connection_accepted os_ok).
  { unfold connection_accepted, setup_succeeds, os_ok, INVALID_SOCKET, SOCKET_ERROR; cbn.
    repeat split; try reflexivity; lia. }
  assert (Hch : Forall chunk_ok [hello; [newline]]).
  { repeat apply Forall_cons; try apply Forall_nil;
      (unfold chunk_ok; split; [discriminate | vm_compute; lia]). }
  split; [exact Hacc|]. split; [reflexivity|]. split; [exact Hch|].
  exact (round_trip_text_mode os_ok [hello; [newline]] [] [] Hacc eq_refl Hch).
Defined.
